(** * keymaster utilities: [Eraser] and [Buffer]

    A shallow embedding of [google_keymaster_utils.h] (namespace
    [keymaster]): the zeroing guard [Eraser] with [memset_s], and the
    flat byte buffer [Buffer] with its read and write positions.

    The header defines [memset_s], the whole of [Eraser], the three
    [Buffer] constructors, [buffer_size], [peek_read], [peek_write],
    [advance_read] and [advance_write]; these are embedded from the
    code.  [Reinitialize] (both overloads), [available_read],
    [available_write], [read] and [write] are only declared there; their
    models follow the specification's wording and say so. *)

From Stdlib Require Import ZArith List Lia Bool.
From Stdlib Require Import Init.Byte Strings.Byte.
Import ListNotations.

Local Open Scope Z_scope.

(* ================================================================= *)
(** ** Machine integers *)

(** [int] is 32 bits wide.  Values are kept as [Z]; [to_int] is the
    conversion of an integer to [int] (two's complement wrap-around). *)

Definition INT_MIN : Z := - 2 ^ 31.
Definition INT_MAX : Z := 2 ^ 31 - 1.

Definition int_range (z : Z) : Prop := INT_MIN <= z <= INT_MAX.

Definition to_int (z : Z) : Z := (z + 2 ^ 31) mod 2 ^ 32 - 2 ^ 31.

(** [uint8_t]: one byte.  [to_uchar] is the conversion of an [int] to
    [unsigned char] that [memset] applies to its fill value. *)

Definition to_uchar (c : Z) : byte :=
  match Byte.of_N (Z.to_N (c mod 256)) with
  | Some b => b
  | None => x00
  end.

(** [size_t] is an unsigned type whose width the header does not fix; it
    is a parameter of the development, at least as wide as [int]. *)

Section SizeT.

Variable size_bits : Z.

Definition SIZE_MAX : Z := 2 ^ size_bits - 1.

Definition size_range (z : Z) : Prop := 0 <= z <= SIZE_MAX.

Definition to_size (z : Z) : Z := z mod 2 ^ size_bits.

End SizeT.

(* ================================================================= *)
(** ** Array helpers *)

(** The templates take a C array by reference, [const T (&a)[N]]: a list
    of [N] elements.  A [T*] is seen as the elements behind it, by
    index. *)

Section Arrays.

Variable T : Type.

(** [array_size(a)]: [return sizeof(a);], that is [N * sizeof(T)]. *)
Definition array_size (sizeof_T : Z) (a : list T) : Z :=
  Z.of_nat (length a) * sizeof_T.

(** [array_length(a)]: [return N;] *)
Definition array_length (a : list T) : Z := Z.of_nat (length a).

(** [copy_array(arr, dest)]:
    [for (size_t i = 0; i < N; ++i) dest[i] = arr[i];]
    [copy_array_from] is the loop from index [i] on, over the elements
    not yet copied. *)
Fixpoint copy_array_from (arr : list T) (i : Z) (dest : Z -> T) : Z -> T :=
  match arr with
  | [] => dest
  | x :: rest =>
      copy_array_from rest (i + 1) (fun j => if j =? i then x else dest j)
  end.

Definition copy_array (arr : list T) (dest : Z -> T) : Z -> T :=
  copy_array_from arr 0 dest.

(** [dup_array(a)]: [T* dup = new T[N]; if (dup != NULL) memcpy(dup, &a,
    array_size(a)); return dup;]  [fresh] is the array [new T[N]] gives,
    with the elements it happens to hold, or nothing when the allocation
    fails.  A plain [new T[N]] reports failure by throwing
    [std::bad_alloc], so in that case [dup_array] does not return
    ([None]); when [new] returns, the pointer is not null, the test
    passes and the copy is made. *)
Definition dup_array (fresh : option (Z -> T)) (a : list T) : option (Z -> T) :=
  match fresh with
  | None => None
  | Some dup =>
      Some (fun j =>
              if (0 <=? j) && (j <? array_length a) then
                match nth_error a (Z.to_nat j) with
                | Some x => x
                | None => dup j
                end
              else dup j)
  end.

(** The element type's [operator==]. *)
Variable T_eq : T -> T -> bool.

(** [array_contains(a, val)]:
    [for (size_t i = 0; i < N; ++i) { if (a[i] == val) return true; }
     return false;] *)
Fixpoint array_contains (a : list T) (val : T) : bool :=
  match a with
  | [] => false
  | x :: rest => if T_eq x val then true else array_contains rest val
  end.

End Arrays.

Arguments array_size {T} sizeof_T a.
Arguments array_length {T} a.
Arguments copy_array_from {T} arr i dest.
Arguments copy_array {T} arr dest.
Arguments dup_array {T} fresh a.
Arguments array_contains {T} T_eq a val.

(* ================================================================= *)
(** ** Raw memory, [memset_s] and [Eraser] *)

(** Memory as seen through a [void*]: an address is mapped to a byte or
    is not mapped at all.  The null pointer is address [0]. *)

Definition memory : Type := Z -> option byte.

Definition NULL : Z := 0.

Definition store (m : memory) (a : Z) (v : byte) : memory :=
  fun x => if x =? a then Some v else m x.

(** [memset(s, c, n)]: stores [(unsigned char)c] into each of the [n]
    bytes from [s] on, lowest address first.  A store through an address
    that is not mapped is a fault ([None]); with [n = 0] nothing is
    accessed. *)

Fixpoint memset_bytes (m : memory) (s : Z) (v : byte) (k : nat) : option memory :=
  match k with
  | O => Some m
  | S k' =>
      match m s with
      | None => None
      | Some _ => memset_bytes (store m s v) (s + 1) v k'
      end
  end.

Definition memset (s c n : Z) (m : memory) : option (Z * memory) :=
  match memset_bytes m s (to_uchar c) (Z.to_nat n) with
  | Some m' => Some (s, m')
  | None => None
  end.

(** [inline void* memset_s(void* s, int c, size_t n) { return memset(s, c, n); }]
    The pragmas around it keep the compiler from dropping the call; they
    do not change what the call does. *)

Definition memset_s (s c n : Z) (m : memory) : option (Z * memory) :=
  memset s c n m.

(** [class Eraser]: [uint8_t* buf_; size_t size_;]  The constructor
    from a [T*] is declared and left without a definition on purpose;
    copying is private. *)

Record Eraser : Type := mkEraser {
  buf_ : Z;
  size_ : Z
}.

(** [Eraser(void* buf, size_t size) : buf_(buf), size_(size)] *)
Definition Eraser_ptr (buf size : Z) : Eraser :=
  {| buf_ := buf; size_ := size |}.

(** [template <size_t N> Eraser(uint8_t (&arr)[N]) : buf_(arr), size_(N)] *)
Definition Eraser_array (arr N : Z) : Eraser :=
  {| buf_ := arr; size_ := N |}.

(** [template <typename T> Eraser(T& t) : buf_(&t), size_(sizeof(t))];
    the object is given by its address and its [sizeof]. *)
Definition Eraser_object (addr sizeof_t : Z) : Eraser :=
  {| buf_ := addr; size_ := sizeof_t |}.

(** [~Eraser() { memset_s(buf_, 0, size_); }]  The pointer [memset_s]
    returns is dropped. *)
Definition Eraser_destroy (e : Eraser) (m : memory) : option memory :=
  match memset_s (buf_ e) 0 (size_ e) m with
  | Some (_, m') => Some m'
  | None => None
  end.

(** An [Eraser] is an automatic object: C++ runs its destructor when the
    enclosing scope is left, whichever way control leaves it.  [body] is
    the code of the scope; it reports how it ended. *)

Inductive scope_exit : Type :=
| FallThrough
| EarlyReturn
| Unwinding.

Definition Eraser_scope (e : Eraser) (body : memory -> scope_exit * memory)
    (m : memory) : option (scope_exit * memory) :=
  let (how, m1) := body m in
  match Eraser_destroy e m1 with
  | Some m2 => Some (how, m2)
  | None => None
  end.

(** The [n] bytes from [p] on are all mapped. *)
Definition region_mapped (m : memory) (p n : Z) : Prop :=
  forall a, p <= a < p + n -> m a <> None.

(* ================================================================= *)
(** ** Byte arrays and [memcpy] *)

(** The bytes behind a [uint8_t*], by offset from the pointer. *)
Definition view : Type := Z -> byte.

(** The first [n] bytes of a view, as a sequence. *)
Definition bytes_at (v : view) (n : Z) : list byte :=
  map (fun k => v (Z.of_nat k)) (seq 0 (Z.to_nat n)).

(** The view of a byte sequence laid out in memory. *)
Definition view_of (s : list byte) : view :=
  fun i => nth (Z.to_nat i) s x00.

(** An array obtained from [new uint8_t[n]]: its length and its bytes. *)
Record block : Type := mkBlock {
  blk_len : Z;
  blk_data : view
}.

(** Operations on the buffer either return, or touch memory they must
    not touch (through [NULL], or outside the array): a [Fault]. *)
Inductive outcome (A : Type) : Type :=
| Ret (a : A)
| Fault.

Arguments Ret {A} a.
Arguments Fault {A}.

Definition bind {A B : Type} (x : outcome A) (f : A -> outcome B) : outcome B :=
  match x with
  | Ret a => f a
  | Fault => Fault
  end.

Notation "x <- e ;; k" := (bind e (fun x => k))
  (at level 61, e at next level, right associativity).
Notation "' p <- e ;; k" := (bind e (fun p => k))
  (at level 61, p pattern, e at next level, right associativity).

Definition in_block (blk : block) (off n : Z) : bool :=
  (0 <=? off) && (off + n <=? blk_len blk).

(** [memcpy(p + off, src, n)] into the array behind [p]. *)
Definition memcpy_to_block (p : option block) (off : Z) (src : view) (n : Z)
  : outcome (option block) :=
  if n =? 0 then Ret p
  else
    match p with
    | None => Fault
    | Some blk =>
        if in_block blk off n then
          Ret (Some {| blk_len := blk_len blk;
                       blk_data := fun i =>
                         if (off <=? i) && (i <? off + n)
                         then src (i - off) else blk_data blk i |})
        else Fault
    end.

(** [memcpy(dest, p + off, n)] out of the array behind [p]. *)
Definition memcpy_from_block (dest : view) (p : option block) (off n : Z)
  : outcome view :=
  if n =? 0 then Ret dest
  else
    match p with
    | None => Fault
    | Some blk =>
        if in_block blk off n then
          Ret (fun i => if (0 <=? i) && (i <? n)
                        then blk_data blk (off + i) else dest i)
        else Fault
    end.

(* ================================================================= *)
(** ** [Buffer] *)

(** [uint8_t* buffer_; size_t buffer_size_; int read_position_;
    int write_position_;]  [buffer_] is [NULL] ([None]) or points to an
    array the buffer owns. *)
Record Buffer : Type := mkBuffer {
  buffer_ : option block;
  buffer_size_ : Z;
  read_position_ : Z;
  write_position_ : Z
}.

(** [Buffer() : buffer_(NULL), buffer_size_(0), read_position_(0),
    write_position_(0)] *)
Definition Buffer_new : Buffer :=
  {| buffer_ := None; buffer_size_ := 0;
     read_position_ := 0; write_position_ := 0 |}.

(** [size_t buffer_size() const { return buffer_size_; }] *)
Definition buffer_size (b : Buffer) : Z := buffer_size_ b.

(** [const uint8_t* peek_read() const { return buffer_ + read_position_; }]
    A pointer into the array: the array and the offset. *)
Definition peek_read (b : Buffer) : option block * Z :=
  (buffer_ b, read_position_ b).

(** [uint8_t* peek_write() { return buffer_ + write_position_; }] *)
Definition peek_write (b : Buffer) : option block * Z :=
  (buffer_ b, write_position_ b).

(** [void advance_read(int distance) { read_position_ += distance; }]
    An [int] addition, stored in an [int].  C++ leaves a sum outside the
    range of [int] undefined; the two's complement result is what is
    written out here. *)
Definition advance_read (distance : Z) (b : Buffer) : Buffer :=
  {| buffer_ := buffer_ b;
     buffer_size_ := buffer_size_ b;
     read_position_ := to_int (read_position_ b + distance);
     write_position_ := write_position_ b |}.

(** [void advance_write(int distance) { write_position_ += distance; }] *)
Definition advance_write (distance : Z) (b : Buffer) : Buffer :=
  {| buffer_ := buffer_ b;
     buffer_size_ := buffer_size_ b;
     read_position_ := read_position_ b;
     write_position_ := to_int (write_position_ b + distance) |}.

(** Modelled from the spec: [bool Buffer::Reinitialize(size_t size)] is
    declared in the header and defined elsewhere.  "Allocates storage of
    capacity bytes, resets both cursors to zero, releases any previous
    storage.  Fails (returns a failure indicator) if allocation fails;
    leaves the buffer in the empty state on failure."  [fresh] is what
    the allocation hands back: nothing when it fails, else the bytes the
    new array happens to hold.  The previous array is dropped. *)
Definition Reinitialize_size (fresh : option view) (size : Z) (b : Buffer)
  : bool * Buffer :=
  match fresh with
  | None => (false, Buffer_new)
  | Some data =>
      (true, {| buffer_ := Some {| blk_len := size; blk_data := data |};
                buffer_size_ := size;
                read_position_ := 0;
                write_position_ := 0 |})
  end.


(** [Buffer(size_t size) : buffer_(NULL) { Reinitialize(size); }]
    Only [buffer_] is initialised before the call; the other members
    hold whatever [indet] holds. *)
Definition Buffer_sized (indet : Buffer) (fresh : option view) (size : Z) : Buffer :=
  snd (Reinitialize_size fresh size
         {| buffer_ := None;
            buffer_size_ := buffer_size_ indet;
            read_position_ := read_position_ indet;
            write_position_ := write_position_ indet |}).





(** The spec's invariant on the cursors. *)
Definition cursors_ok (b : Buffer) : Prop :=
  0 <= read_position_ b /\
  read_position_ b <= write_position_ b /\
  write_position_ b <= buffer_size_ b.

(** The array behind [buffer_] has [buffer_size_] bytes; without an
    array the size is zero. *)
Definition storage_ok (b : Buffer) : Prop :=
  match buffer_ b with
  | Some blk => blk_len blk = buffer_size_ b
  | None => buffer_size_ b = 0
  end.

Section Sized.

Variable size_bits : Z.

(** Modelled from the spec: [size_t Buffer::available_write() const] is
    declared in the header and defined elsewhere.  "capacity -
    write_cursor", returned as the [size_t] of the declaration. *)
Definition available_write (b : Buffer) : Z :=
  to_size size_bits (buffer_size_ b - write_position_ b).

(** Modelled from the spec: [size_t Buffer::available_read() const] is
    declared in the header and defined elsewhere.  "write_cursor -
    read_cursor", returned as the [size_t] of the declaration. *)
Definition available_read (b : Buffer) : Z :=
  to_size size_bits (write_position_ b - read_position_ b).

(** Modelled from the spec: [bool Buffer::write(const uint8_t* src,
    size_t write_length)] is declared in the header and defined
    elsewhere.  "If n > available_write(), fails and the buffer is left
    unchanged (no partial write); otherwise copies n bytes from source
    starting at write_cursor, advances write_cursor by n, returns
    success."  The cursor arithmetic is the spec's: the new cursor is
    the sum. *)
Definition write (src : view) (write_length : Z) (b : Buffer)
  : outcome (bool * Buffer) :=
  if available_write b <? write_length then Ret (false, b)
  else
    p <- memcpy_to_block (buffer_ b) (write_position_ b) src write_length ;;
    Ret (true, {| buffer_ := p;
                  buffer_size_ := buffer_size_ b;
                  read_position_ := read_position_ b;
                  write_position_ := write_position_ b + write_length |}).

(** Modelled from the spec: [bool Buffer::read(uint8_t* dest, size_t
    read_length)] is declared in the header and defined elsewhere.  "If
    n > available_read(), fails and the buffer is left unchanged (no
    partial read); otherwise copies n bytes starting at read_cursor into
    dest, advances read_cursor by n, returns success."  The cursor
    arithmetic is the spec's: the new cursor is the sum.  The result
    carries what [dest] points to afterwards. *)
Definition read (dest : view) (read_length : Z) (b : Buffer)
  : outcome (bool * view * Buffer) :=
  if available_read b <? read_length then Ret (false, dest, b)
  else
    d <- memcpy_from_block dest (buffer_ b) (read_position_ b) read_length ;;
    Ret (true, d, {| buffer_ := buffer_ b;
                     buffer_size_ := buffer_size_ b;
                     read_position_ := read_position_ b + read_length;
                     write_position_ := write_position_ b |}).

(** A buffer as the spec's data model has it: the cursors are in order,
    the array has [buffer_size_] bytes, and the size is a value of
    [size_t]. *)
Definition Buffer_inv (b : Buffer) : Prop :=
  cursors_ok b /\ storage_ok b /\ size_range size_bits (buffer_size_ b).




End Sized.

(** The byte the buffer's array holds at offset [i]. *)
Definition byte_at (b : Buffer) (i : Z) : byte :=
  match buffer_ b with
  | Some blk => blk_data blk i
  | None => x00
  end.


(* ================================================================= *)
(** ** Sample data *)

Definition zeros : view := fun _ => x00.

Definition bytes_1_5 : list byte := [x01; x02; x03; x04; x05].

(** Four mapped bytes at addresses 16..19, all [0xff]; nothing else is
    mapped. *)
Definition secret_memory : memory :=
  fun a => if (16 <=? a) && (a <? 20) then Some xff else None.

(** A buffer of capacity 16 holding five written bytes, two of them
    already read. *)
Definition sample_buffer : Buffer :=
  {| buffer_ := Some {| blk_len := 16; blk_data := view_of bytes_1_5 |};
     buffer_size_ := 16;
     read_position_ := 2;
     write_position_ := 5 |}.


(** [sample_buffer] after [advance_write(12)]: the write cursor is 17,
    past the 16 bytes of the array. *)
Definition write_past_array : Buffer := advance_write 12 sample_buffer.

(** [sample_buffer] after [advance_read(-3)]: the read cursor is -1. *)
Definition read_before_array : Buffer := advance_read (-3) sample_buffer.

(** [sample_buffer] after [advance_read(4)]: the read cursor is 6, past
    the write cursor 5. *)
Definition read_past_write : Buffer := advance_read 4 sample_buffer.

(** A buffer whose size says 4 bytes and which has no array. *)
Definition unbacked_buffer : Buffer :=
  {| buffer_ := None;
     buffer_size_ := 4;
     read_position_ := 0;
     write_position_ := 2 |}.


(* ================================================================= *)
(** ** [java_time] *)

(** A signed integer type of [bits] bits: its range, and the conversion
    of an integer to it (two's complement wrap-around). *)
Definition signed_range (bits z : Z) : Prop :=
  - 2 ^ (bits - 1) <= z <= 2 ^ (bits - 1) - 1.

Definition to_signed (bits z : Z) : Z :=
  (z + 2 ^ (bits - 1)) mod 2 ^ bits - 2 ^ (bits - 1).

(** [inline int64_t java_time(time_t time) { return time * 1000; }]
    [time_t] is taken as a signed integer type of [time_bits] bits, at
    least as wide as [int], so the product is formed in [time_t]; the
    result is then converted to [int64_t].  C++ leaves a product outside
    the range of [time_t] undefined; the two's complement result is what
    is written out here. *)
Definition java_time (time_bits time : Z) : Z :=
  to_signed 64 (to_signed time_bits (time * 1000)).

(* ================================================================= *)
(** ** Writing in place *)

(** What a producer does with the pointer [peek_write()] gave it:
    [memcpy(ptr, src, n)].  The pointer is into the buffer's own array,
    so the bytes land in the buffer; no cursor moves. *)
Definition store_at (ptr : option block * Z) (src : view) (n : Z) (b : Buffer)
  : outcome Buffer :=
  p <- memcpy_to_block (fst ptr) (snd ptr) src n ;;
  Ret {| buffer_ := p;
         buffer_size_ := buffer_size_ b;
         read_position_ := read_position_ b;
         write_position_ := write_position_ b |}.

(** What a consumer does with the pointer [peek_read()] gave it:
    [memcpy(dest, ptr, n)]. *)
Definition load_at (dest : view) (ptr : option block * Z) (n : Z) : outcome view :=
  memcpy_from_block dest (fst ptr) (snd ptr) n.

(* ================================================================= *)
(** * Properties *)

(** ** Integer conversions *)

(** Range side conditions: unfold the ranges and leave the rest to
    linear arithmetic. *)
Ltac range_lia :=
  unfold int_range, size_range, INT_MIN, INT_MAX, SIZE_MAX in *; lia.

Lemma to_int_id (z : Z) : int_range z -> to_int z = z.
Proof.
  unfold int_range, INT_MIN, INT_MAX, to_int. intros H.
  rewrite Z.mod_small; lia.
Qed.

Lemma to_size_id (w z : Z) : size_range w z -> to_size w z = z.
Proof.
  unfold size_range, SIZE_MAX, to_size. intros H.
  apply Z.mod_small. lia.
Qed.

Lemma to_size_nonneg (w z : Z) : 0 <= w -> 0 <= to_size w z.
Proof.
  intros Hw. unfold to_size.
  assert (0 < 2 ^ w) by (apply Z.pow_pos_nonneg; lia).
  pose proof (Z.mod_pos_bound z (2 ^ w)). lia.
Qed.

Lemma to_uchar_zero : to_uchar 0 = x00.
Proof. reflexivity. Qed.

(** ** [memset] *)

Lemma store_same (m : memory) (a : Z) (v : byte) : store m a v a = Some v.
Proof. unfold store. now rewrite Z.eqb_refl. Qed.

Lemma store_other (m : memory) (a x : Z) (v : byte) :
  x <> a -> store m a v x = m x.
Proof.
  intros H. unfold store. destruct (Z.eqb_spec x a); congruence.
Qed.

(** On a mapped region [memset_bytes] returns, fills the region and
    leaves every other address as it was. *)
Lemma memset_bytes_mapped (k : nat) : forall (m : memory) (s : Z) (v : byte),
  region_mapped m s (Z.of_nat k) ->
  exists m',
    memset_bytes m s v k = Some m' /\
    (forall a, s <= a < s + Z.of_nat k -> m' a = Some v) /\
    (forall a, ~ (s <= a < s + Z.of_nat k) -> m' a = m a).
Proof.
  induction k as [|k IH]; intros m s v Hmap.
  - exists m. simpl. repeat split; intros; auto; lia.
  - cbn [memset_bytes].
    destruct (m s) as [old|] eqn:Hs.
    2:{ exfalso. apply (Hmap s); [lia | exact Hs]. }
    destruct (IH (store m s v) (s + 1) v) as (m' & Hrun & Hin & Hout).
    { intros a Ha. rewrite store_other by lia. apply Hmap. lia. }
    exists m'. split; [exact Hrun|]. split.
    + intros a Ha. destruct (Z.eq_dec a s) as [->|Hne].
      * rewrite Hout by lia. apply store_same.
      * apply Hin. lia.
    + intros a Ha. rewrite Hout by lia. apply store_other. lia.
Qed.

(** The first store of [memset_bytes] faults on an address that is not
    mapped. *)
Lemma memset_bytes_unmapped (k : nat) (m : memory) (s : Z) (v : byte) :
  m s = None -> memset_bytes m s v (S k) = None.
Proof. intros H. cbn [memset_bytes]. now rewrite H. Qed.

Lemma Eraser_destroy_mapped (e : Eraser) (m : memory) :
  region_mapped m (buf_ e) (size_ e) ->
  exists m',
    Eraser_destroy e m = Some m' /\
    (forall a, buf_ e <= a < buf_ e + size_ e -> m' a = Some x00) /\
    (forall a, ~ (buf_ e <= a < buf_ e + size_ e) -> m' a = m a).
Proof.
  intros Hmap. unfold Eraser_destroy, memset_s, memset.
  rewrite to_uchar_zero.
  destruct (memset_bytes_mapped (Z.to_nat (size_ e)) m (buf_ e) x00)
    as (m' & Hrun & Hin & Hout).
  { intros a Ha. apply Hmap. lia. }
  exists m'. rewrite Hrun. split; [reflexivity|]. split.
  - intros a Ha. apply Hin. lia.
  - intros a Ha. destruct (Z_le_gt_dec 0 (size_ e)).
    + apply Hout. lia.
    + apply Hout. lia.
Qed.

(** ** [Eraser] *)

(** C5.  An [Eraser] bound to a non-null region of [size_] mapped bytes:
    when its scope is left, by whichever exit, the destructor returns,
    every byte of the region reads as zero afterwards, and no byte
    outside the region is changed.  The binding constructors only set
    [buf_] and [size_], so this covers an object, an array and an
    explicit pointer with its length alike. *)
Theorem Eraser_zeroes_region (e : Eraser)
    (body : memory -> scope_exit * memory) (m m1 : memory) (how : scope_exit) :
  buf_ e <> NULL ->
  body m = (how, m1) ->
  region_mapped m1 (buf_ e) (size_ e) ->
  exists m2,
    Eraser_scope e body m = Some (how, m2) /\
    (forall a, buf_ e <= a < buf_ e + size_ e -> m2 a = Some x00) /\
    (forall a, ~ (buf_ e <= a < buf_ e + size_ e) -> m2 a = m1 a).
Proof.
  intros _ Hbody Hmap.
  destruct (Eraser_destroy_mapped e m1 Hmap) as (m2 & Hrun & Hin & Hout).
  exists m2. unfold Eraser_scope. rewrite Hbody, Hrun. auto.
Qed.

Lemma secret_memory_mapped : region_mapped secret_memory 16 4.
Proof.
  intros a Ha. unfold secret_memory.
  destruct (Z.leb_spec 16 a); [|lia].
  destruct (Z.ltb_spec a 20); [|lia].
  discriminate.
Qed.

Lemma Eraser_zeroes_region_witness :
  exists m2,
    Eraser_scope (Eraser_ptr 16 4) (fun m => (EarlyReturn, m)) secret_memory
      = Some (EarlyReturn, m2) /\
    (forall a, 16 <= a < 16 + 4 -> m2 a = Some x00) /\
    (forall a, ~ (16 <= a < 16 + 4) -> m2 a = secret_memory a).
Proof.
  apply (Eraser_zeroes_region (Eraser_ptr 16 4)
           (fun m => (EarlyReturn, m)) secret_memory secret_memory EarlyReturn).
  - discriminate.
  - reflexivity.
  - exact secret_memory_mapped.
Defined.

(** C6, as stated, fails: the destructor passes [buf_] to [memset_s]
    without looking at it.  An [Eraser] made from a null pointer and the
    length 1 writes through the null pointer when it is destroyed, which
    faults; it is not a no-op. *)
Lemma Eraser_null_not_inert :
  buf_ (Eraser_ptr NULL 1) = NULL /\
  secret_memory NULL = None /\
  Eraser_destroy (Eraser_ptr NULL 1) secret_memory = None /\
  Eraser_destroy (Eraser_ptr NULL 1) secret_memory <> Some secret_memory.
Proof.
  split; [reflexivity|]. split; [reflexivity|].
  split; [reflexivity | discriminate].
Qed.

(** C6, amended.  An [Eraser] of length zero, whatever its pointer, null
    included, wipes nothing at destruction: the destructor returns and
    memory is as before.  With a null pointer and a positive length the
    destructor faults; there is no guard. *)
Theorem Eraser_zero_length_inert (e : Eraser) (m : memory) :
  (size_ e = 0 -> Eraser_destroy e m = Some m) /\
  (buf_ e = NULL -> m NULL = None -> 0 < size_ e -> Eraser_destroy e m = None).
Proof.
  split.
  - intros H0. unfold Eraser_destroy, memset_s, memset.
    rewrite H0. reflexivity.
  - intros Hnull Hm Hpos. unfold Eraser_destroy, memset_s, memset.
    destruct (Z.to_nat (size_ e)) as [|k] eqn:Hk; [lia|].
    rewrite memset_bytes_unmapped; [reflexivity|].
    rewrite Hnull. exact Hm.
Qed.

Lemma Eraser_zero_length_inert_witness :
  Eraser_destroy (Eraser_ptr NULL 0) secret_memory = Some secret_memory /\
  Eraser_destroy (Eraser_ptr NULL 4) secret_memory = None.
Proof.
  split.
  - apply (proj1 (Eraser_zero_length_inert (Eraser_ptr NULL 0) secret_memory)).
    reflexivity.
  - apply (proj2 (Eraser_zero_length_inert (Eraser_ptr NULL 4) secret_memory)).
    + reflexivity.
    + reflexivity.
    + simpl. lia.
Defined.

(** ** [Buffer]: the checked operations on a buffer of the data model *)

Lemma available_nonneg (size_bits : Z) (b : Buffer) :
  32 <= size_bits ->
  0 <= available_read size_bits b /\ 0 <= available_write size_bits b.
Proof.
  intros Hw. unfold available_read, available_write.
  split; apply to_size_nonneg; lia.
Qed.


Lemma available_read_exact (size_bits : Z) (b : Buffer) :
  Buffer_inv size_bits b ->
  available_read size_bits b = write_position_ b - read_position_ b.
Proof.
  intros ((H0 & Hrw & Hwc) & _ & Hs). unfold available_read.
  apply to_size_id. unfold size_range in *. lia.
Qed.

Lemma write_fails (size_bits : Z) (src : view) (n : Z) (b : Buffer) :
  available_write size_bits b < n -> write size_bits src n b = Ret (false, b).
Proof.
  intros H. unfold write.
  apply Z.ltb_lt in H. now rewrite H.
Qed.

Lemma read_fails (size_bits : Z) (dest : view) (n : Z) (b : Buffer) :
  available_read size_bits b < n -> read size_bits dest n b = Ret (false, dest, b).
Proof.
  intros H. unfold read.
  apply Z.ltb_lt in H. now rewrite H.
Qed.


(** A read that is covered returns, and this is what it delivers. *)
Lemma read_covered (size_bits : Z) (dest : view) (n : Z) (b : Buffer) :
  Buffer_inv size_bits b -> size_range size_bits n ->
  n <= available_read size_bits b ->
  exists d,
    read size_bits dest n b =
      Ret (true, d, {| buffer_ := buffer_ b;
                       buffer_size_ := buffer_size_ b;
                       read_position_ := read_position_ b + n;
                       write_position_ := write_position_ b |}) /\
    (forall i, 0 <= i < n -> d i = byte_at b (read_position_ b + i)) /\
    (forall i, ~ (0 <= i < n) -> d i = dest i).
Proof.
  intros Hinv Hn Hfit.
  pose proof (available_read_exact size_bits b Hinv) as Har.
  destruct Hinv as ((H0 & Hrw & Hwc) & Hst & Hs).
  unfold size_range in Hn.
  unfold read.
  destruct (Z.ltb_spec (available_read size_bits b) n) as [Hlt|_]; [lia|].
  unfold memcpy_from_block.
  destruct (Z.eqb_spec n 0) as [->|Hn0].
  - cbn [bind]. exists dest. split; [reflexivity|].
    split; intros; [lia|reflexivity].
  - unfold storage_ok in Hst.
    destruct (buffer_ b) as [blk|] eqn:Hblk; [|lia].
    assert (Hin : in_block blk (read_position_ b) n = true).
    { unfold in_block. apply andb_true_intro.
      split; apply Z.leb_le; lia. }
    rewrite Hin. cbn [bind]. eexists. split; [reflexivity|].
    split.
    + intros i Hi. unfold byte_at. rewrite Hblk.
      destruct (Z.leb_spec 0 i); [|lia].
      destruct (Z.ltb_spec i n); [|lia]. reflexivity.
    + intros i Hi.
      destruct (Z.leb_spec 0 i); destruct (Z.ltb_spec i n); cbn; auto; lia.
Qed.




Lemma size_range_64_small (n : Z) : 0 <= n <= 2 ^ 32 -> size_range 64 n.
Proof. unfold size_range, SIZE_MAX. lia. Qed.

Lemma sample_buffer_inv : Buffer_inv 64 sample_buffer.
Proof.
  split; [|split].
  - unfold cursors_ok; cbn; lia.
  - reflexivity.
  - apply size_range_64_small. cbn. lia.
Qed.


(** ** [write] and [read] *)




(** C2, as stated, fails on the buffers the unchecked cursor moves leave
    behind, and on a buffer without its array.  After [advance_read(-3)]
    the read cursor of the sample buffer is -1; after [advance_read(4)]
    it is 6, past the write cursor; after [advance_write(12)] the write
    cursor is 17, past the array.  In each a read within
    [available_read()] is not refused, and the copy reaches outside the
    array: a fault, not a success. *)
Lemma read_outside_array :
  (read_position_ read_before_array = -1 /\
   1 <= available_read 64 read_before_array /\
   read 64 zeros 1 read_before_array = Fault) /\
  (read_position_ read_past_write = 6 /\
   write_position_ read_past_write = 5 /\
   11 <= available_read 64 read_past_write /\
   read 64 zeros 11 read_past_write = Fault) /\
  (write_position_ write_past_array = 17 /\
   buffer_size_ write_past_array = 16 /\
   15 <= available_read 64 write_past_array /\
   read 64 zeros 15 write_past_array = Fault) /\
  (buffer_ unbacked_buffer = None /\
   1 <= available_read 64 unbacked_buffer /\
   read 64 zeros 1 unbacked_buffer = Fault).
Proof.
  split; [|split; [|split]].
  - split; [reflexivity|]. split; [vm_compute; discriminate | reflexivity].
  - split; [reflexivity|]. split; [reflexivity|].
    split; [vm_compute; discriminate | reflexivity].
  - split; [reflexivity|]. split; [reflexivity|].
    split; [vm_compute; discriminate | reflexivity].
  - split; [reflexivity|]. split; [vm_compute; discriminate | reflexivity].
Qed.

(** C2, amended.  A [read] of more than [available_read()] bytes returns
    failure and leaves the buffer and the destination exactly as they
    were, whatever the buffer.  Otherwise, on a buffer whose array has
    [buffer_size_] bytes and whose cursors satisfy
    [0 <= read cursor <= write cursor <= buffer_size_], [read] returns
    success, delivers the [n] bytes stored from the read cursor on,
    moves the read cursor on by exactly [n], and changes nothing
    else. *)
Theorem read_checked (size_bits : Z) :
  (forall (dest : view) (n : Z) (b : Buffer),
     available_read size_bits b < n ->
     read size_bits dest n b = Ret (false, dest, b)) /\
  (forall (dest : view) (n : Z) (b : Buffer),
     cursors_ok b ->
     storage_ok b ->
     size_range size_bits (buffer_size_ b) ->
     size_range size_bits n ->
     n <= available_read size_bits b ->
     exists d b',
       read size_bits dest n b = Ret (true, d, b') /\
       read_position_ b' = read_position_ b + n /\
       write_position_ b' = write_position_ b /\
       buffer_size_ b' = buffer_size_ b /\
       buffer_ b' = buffer_ b /\
       (forall i, 0 <= i < n -> d i = byte_at b (read_position_ b + i)) /\
       (forall i, ~ (0 <= i < n) -> d i = dest i)).
Proof.
  split.
  - intros dest n b. apply read_fails.
  - intros dest n b Hc Hst Hs Hn Hfit.
    destruct (read_covered size_bits dest n b (conj Hc (conj Hst Hs)) Hn Hfit)
      as (d & Hrun & Hin & Hout).
    exists d. eexists. split; [exact Hrun|]. cbn. repeat split; auto.
Qed.

Lemma read_checked_witness :
  read 64 zeros 4 sample_buffer = Ret (false, zeros, sample_buffer) /\
  exists d b',
    read 64 zeros 3 sample_buffer = Ret (true, d, b') /\
    read_position_ b' = 5 /\ d 0 = x03 /\ d 1 = x04 /\ d 2 = x05.
Proof.
  destruct (read_checked 64) as [Hfail Hfit].
  split.
  - apply Hfail. vm_compute. reflexivity.
  - destruct sample_buffer_inv as (Hc & Hst & Hs).
    destruct (Hfit zeros 3 sample_buffer) as (d & b' & Hrun & Hrp & _ & _ & _ & Hin & _).
    + exact Hc.
    + exact Hst.
    + exact Hs.
    + apply size_range_64_small. lia.
    + vm_compute. discriminate.
    + exists d, b'. split; [exact Hrun|]. split; [exact Hrp|].
      repeat split.
      * rewrite (Hin 0) by lia. reflexivity.
      * rewrite (Hin 1) by lia. reflexivity.
      * rewrite (Hin 2) by lia. reflexivity.
Defined.

(** ** [Reinitialize] *)

Lemma bytes_at_ext (v1 v2 : view) (n : Z) :
  (forall i, 0 <= i < n -> v1 i = v2 i) -> bytes_at v1 n = bytes_at v2 n.
Proof.
  intros H. unfold bytes_at. apply map_ext_in.
  intros k Hk. apply in_seq in Hk. apply H. lia.
Qed.

Lemma bytes_at_view_of (s : list byte) :
  bytes_at (view_of s) (Z.of_nat (length s)) = s.
Proof.
  unfold bytes_at, view_of. rewrite Nat2Z.id.
  apply nth_error_ext. intros k.
  destruct (Nat.lt_ge_cases k (length s)) as [Hlt|Hge].
  - rewrite nth_error_map, nth_error_seq.
    apply Nat.ltb_lt in Hlt as Hb. rewrite Hb. cbn.
    rewrite Nat2Z.id. symmetry. now apply nth_error_nth'.
  - rewrite (proj2 (nth_error_None s k) Hge).
    apply nth_error_None. now rewrite length_map, length_seq.
Qed.




Section Reinit.

Variable size_bits : Z.
Hypothesis size_bits_ge : 32 <= size_bits.

(** C7.  [Reinitialize(capacity)] succeeds whenever the allocation
    does; once it has succeeded, for any capacity a [size_t] can hold,
    [available_read()] is 0 and [available_write()] is the capacity:
    both cursors are zero, and the buffer owns an array of exactly
    capacity bytes. *)
Theorem Reinitialize_size_available (fresh : option view) (size : Z) (b : Buffer) :
  size_range size_bits size ->
  (fresh <> None -> fst (Reinitialize_size fresh size b) = true) /\
  (fst (Reinitialize_size fresh size b) = true ->
   available_read size_bits (snd (Reinitialize_size fresh size b)) = 0 /\
   available_write size_bits (snd (Reinitialize_size fresh size b)) = size /\
   read_position_ (snd (Reinitialize_size fresh size b)) = 0 /\
   write_position_ (snd (Reinitialize_size fresh size b)) = 0 /\
   buffer_size_ (snd (Reinitialize_size fresh size b)) = size /\
   exists blk,
     buffer_ (snd (Reinitialize_size fresh size b)) = Some blk /\
     blk_len blk = size).
Proof.
  intros Hs. destruct fresh as [data|]; cbn.
  - split; [reflexivity|]. intros _.
    unfold available_read, available_write; cbn.
    rewrite Z.sub_0_r, (to_size_id _ _ Hs).
    repeat split; eauto.
  - split; [congruence | discriminate].
Qed.

(** C8.  A read or a write of zero bytes succeeds on every buffer, with
    nothing copied, and leaves a buffer whose cursor is a value of its
    type as it was.  On a default-constructed buffer both available
    counts are zero, so a read or a write of [n > 0] bytes is refused as
    a request beyond what is available: it returns failure, not a fault,
    and the buffer stays as constructed. *)
Theorem zero_length_and_empty :
  (forall (dest : view) (b : Buffer),
     exists b', read size_bits dest 0 b = Ret (true, dest, b') /\
                (int_range (read_position_ b) -> b' = b)) /\
  (forall (src : view) (b : Buffer),
     exists b', write size_bits src 0 b = Ret (true, b') /\
                (int_range (write_position_ b) -> b' = b)) /\
  (forall (dest : view) (n : Z), 0 < n ->
     available_read size_bits Buffer_new < n /\
     read size_bits dest n Buffer_new = Ret (false, dest, Buffer_new)) /\
  (forall (src : view) (n : Z), 0 < n ->
     available_write size_bits Buffer_new < n /\
     write size_bits src n Buffer_new = Ret (false, Buffer_new)).
Proof.
  assert (Hw : 0 <= size_bits) by lia.
  split; [|split; [|split]].
  - intros dest b.
    pose proof (proj1 (available_nonneg size_bits b size_bits_ge)) as Hnn.
    unfold read. destruct (Z.ltb_spec (available_read size_bits b) 0); [lia|].
    cbn. eexists. split; [reflexivity|].
    intros Hr. destruct b; cbn in *.
    rewrite Z.add_0_r. reflexivity.
  - intros src b.
    pose proof (proj2 (available_nonneg size_bits b size_bits_ge)) as Hnn.
    unfold write. destruct (Z.ltb_spec (available_write size_bits b) 0); [lia|].
    cbn. eexists. split; [reflexivity|].
    intros Hr. destruct b; cbn in *.
    rewrite Z.add_0_r. reflexivity.
  - intros dest n Hn.
    assert (Ha : available_read size_bits Buffer_new < n) by (cbn; exact Hn).
    split; [exact Ha | now apply read_fails].
  - intros src n Hn.
    assert (Ha : available_write size_bits Buffer_new < n) by (cbn; exact Hn).
    split; [exact Ha | now apply write_fails].
Qed.

End Reinit.


Lemma Reinitialize_size_available_witness :
  size_range 64 16 /\
  fst (Reinitialize_size (Some zeros) 16 sample_buffer) = true /\
  available_read 64 (snd (Reinitialize_size (Some zeros) 16 sample_buffer)) = 0 /\
  available_write 64 (snd (Reinitialize_size (Some zeros) 16 sample_buffer)) = 16.
Proof.
  assert (H16 : size_range 64 16) by (apply size_range_64_small; lia).
  split; [exact H16|].
  destruct (Reinitialize_size_available 64 (Some zeros) 16 sample_buffer H16)
    as (Hok & Hthen).
  assert (Htrue : fst (Reinitialize_size (Some zeros) 16 sample_buffer) = true)
    by (apply Hok; discriminate).
  split; [exact Htrue|].
  destruct (Hthen Htrue) as (Hr & Hw & _).
  split; [exact Hr | exact Hw].
Defined.

Lemma zero_length_and_empty_witness :
  read 64 zeros 0 sample_buffer = Ret (true, zeros, sample_buffer) /\
  write 64 zeros 0 sample_buffer = Ret (true, sample_buffer) /\
  read 64 zeros 1 Buffer_new = Ret (false, zeros, Buffer_new) /\
  write 64 zeros 1 Buffer_new = Ret (false, Buffer_new).
Proof.
  destruct (zero_length_and_empty 64 ltac:(lia)) as (Hr0 & Hw0 & Hr & Hw).
  assert (Hrp : int_range (read_position_ sample_buffer))
    by (cbn; range_lia).
  assert (Hwp : int_range (write_position_ sample_buffer))
    by (cbn; range_lia).
  split; [|split; [|split]].
  - destruct (Hr0 zeros sample_buffer) as (b' & Hrun & Hsame).
    rewrite <- (Hsame Hrp) at 2. exact Hrun.
  - destruct (Hw0 zeros sample_buffer) as (b' & Hrun & Hsame).
    rewrite <- (Hsame Hwp) at 2. exact Hrun.
  - apply (Hr zeros 1). lia.
  - apply (Hw zeros 1). lia.
Defined.

(** ** The cursor invariant *)





(** ** Re-initialisation discards what was there *)

Lemma available_read_drained (size_bits : Z) (b : Buffer) :
  read_position_ b = write_position_ b -> available_read size_bits b = 0.
Proof.
  intros H. unfold available_read. rewrite H, Z.sub_diag. reflexivity.
Qed.






(** ** The unchecked cursor moves *)

(** C10.  [advance_read(d)] replaces the read cursor by the [int] sum of
    its old value and [d], which is the old value plus [d] whenever that
    is a value of [int], negative [d] included, and leaves the array, the
    size and the write cursor as they were; [advance_write(d)] does the
    same to the write cursor.  Both are total and return nothing but the
    buffer: there is no check and no indicator.  So from a buffer whose
    cursors are in order they can take the read cursor below zero or
    past the write cursor, and the write cursor past the capacity or
    below the read cursor. *)
Theorem advance_unchecked (d : Z) (b : Buffer) :
  (buffer_ (advance_read d b) = buffer_ b /\
   buffer_size_ (advance_read d b) = buffer_size_ b /\
   write_position_ (advance_read d b) = write_position_ b /\
   read_position_ (advance_read d b) = to_int (read_position_ b + d) /\
   (int_range (read_position_ b + d) ->
    read_position_ (advance_read d b) = read_position_ b + d)) /\
  (buffer_ (advance_write d b) = buffer_ b /\
   buffer_size_ (advance_write d b) = buffer_size_ b /\
   read_position_ (advance_write d b) = read_position_ b /\
   write_position_ (advance_write d b) = to_int (write_position_ b + d) /\
   (int_range (write_position_ b + d) ->
    write_position_ (advance_write d b) = write_position_ b + d)) /\
  (exists b0 d0, cursors_ok b0 /\ int_range d0 /\
                 read_position_ (advance_read d0 b0) < 0) /\
  (exists b0 d0, cursors_ok b0 /\ int_range d0 /\
                 write_position_ b0 < read_position_ (advance_read d0 b0)) /\
  (exists b0 d0, cursors_ok b0 /\ int_range d0 /\
                 buffer_size_ b0 < write_position_ (advance_write d0 b0)) /\
  (exists b0 d0, cursors_ok b0 /\ int_range d0 /\
                 write_position_ (advance_write d0 b0) < read_position_ b0).
Proof.
  assert (Hs : cursors_ok sample_buffer)
    by (unfold cursors_ok; cbn; lia).
  assert (Hr : forall z, -100 <= z <= 100 -> int_range z)
    by range_lia.
  split; [|split; [|split; [|split; [|split]]]].
  - cbn. repeat split. apply to_int_id.
  - cbn. repeat split. apply to_int_id.
  - exists sample_buffer, (-3).
    split; [exact Hs | split; [apply Hr; lia | vm_compute; reflexivity]].
  - exists sample_buffer, 4.
    split; [exact Hs | split; [apply Hr; lia | vm_compute; reflexivity]].
  - exists sample_buffer, 12.
    split; [exact Hs | split; [apply Hr; lia | vm_compute; reflexivity]].
  - exists sample_buffer, (-4).
    split; [exact Hs | split; [apply Hr; lia | vm_compute; reflexivity]].
Qed.

Lemma advance_unchecked_witness :
  int_range (read_position_ sample_buffer + -3) /\
  read_position_ (advance_read (-3) sample_buffer) = -1 /\
  int_range (write_position_ sample_buffer + 12) /\
  write_position_ (advance_write 12 sample_buffer) = 17.
Proof.
  destruct (advance_unchecked (-3) sample_buffer) as ((_ & _ & _ & _ & Hrd) & _).
  destruct (advance_unchecked 12 sample_buffer) as (_ & (_ & _ & _ & _ & Hwr) & _).
  assert (H1 : int_range (read_position_ sample_buffer + -3))
    by (cbn; range_lia).
  assert (H2 : int_range (write_position_ sample_buffer + 12))
    by (cbn; range_lia).
  split; [exact H1|]. split; [rewrite (Hrd H1); reflexivity|].
  split; [exact H2|]. rewrite (Hwr H2). reflexivity.
Defined.

(** ** The specification's end-to-end run *)

(** Capacity 16; write 1..5, write 6..10, read 7 bytes; 3 are left to
    read and 6 to write; a write of 7 is refused, one of 6 fills the
    buffer, one more byte is refused. *)
Example end_to_end :
  exists b1 b2 d b3 b4,
    write 64 (view_of [x01; x02; x03; x04; x05]) 5
      (Buffer_sized Buffer_new (Some zeros) 16) = Ret (true, b1) /\
    write 64 (view_of [x06; x07; x08; x09; x0a]) 5 b1 = Ret (true, b2) /\
    read 64 zeros 7 b2 = Ret (true, d, b3) /\
    bytes_at d 7 = [x01; x02; x03; x04; x05; x06; x07] /\
    available_read 64 b3 = 3 /\
    available_write 64 b3 = 6 /\
    write 64 zeros 7 b3 = Ret (false, b3) /\
    write 64 zeros 6 b3 = Ret (true, b4) /\
    write_position_ b4 = 16 /\
    write 64 zeros 1 b4 = Ret (false, b4).
Proof.
  do 5 eexists.
  repeat (split; [reflexivity|]). reflexivity.
Qed.

(** ** Further properties of the header's code *)

Lemma to_int_add_l (a c : Z) : to_int (to_int a + c) = to_int (a + c).
Proof.
  unfold to_int.
  replace ((a + 2 ^ 31) mod 2 ^ 32 - 2 ^ 31 + c + 2 ^ 31)
    with ((a + 2 ^ 31) mod 2 ^ 32 + c) by lia.
  rewrite Zplus_mod_idemp_l. f_equal. f_equal. lia.
Qed.

(** X1.  Two moves of a cursor add up, a move and its opposite cancel on a
    cursor that is a value of [int], wrap-around included, and moves of
    the two cursors commute. *)
Theorem advance_compose (d1 d2 : Z) (b : Buffer) :
  advance_read d2 (advance_read d1 b) = advance_read (d1 + d2) b /\
  advance_write d2 (advance_write d1 b) = advance_write (d1 + d2) b /\
  advance_read d1 (advance_write d2 b) = advance_write d2 (advance_read d1 b) /\
  (int_range (read_position_ b) -> advance_read (- d1) (advance_read d1 b) = b) /\
  (int_range (write_position_ b) -> advance_write (- d1) (advance_write d1 b) = b).
Proof.
  split; [|split; [|split; [|split]]].
  - unfold advance_read; cbn. rewrite to_int_add_l. do 2 f_equal. lia.
  - unfold advance_write; cbn. rewrite to_int_add_l. do 2 f_equal. lia.
  - reflexivity.
  - intros Hr. destruct b as [p sz rp wp]; unfold advance_read; cbn in *.
    rewrite to_int_add_l. replace (rp + d1 + - d1) with rp by lia.
    now rewrite (to_int_id _ Hr).
  - intros Hr. destruct b as [p sz rp wp]; unfold advance_write; cbn in *.
    rewrite to_int_add_l. replace (wp + d1 + - d1) with wp by lia.
    now rewrite (to_int_id _ Hr).
Qed.

Lemma advance_compose_witness :
  int_range (read_position_ sample_buffer) /\
  int_range (write_position_ sample_buffer) /\
  advance_read (- INT_MAX) (advance_read INT_MAX sample_buffer) = sample_buffer /\
  advance_write (- 7) (advance_write 7 sample_buffer) = sample_buffer.
Proof.
  assert (H1 : int_range (read_position_ sample_buffer))
    by (cbn; range_lia).
  assert (H2 : int_range (write_position_ sample_buffer))
    by (cbn; range_lia).
  split; [exact H1|]. split; [exact H2|]. split.
  - destruct (advance_compose INT_MAX 0 sample_buffer) as (_ & _ & _ & H & _).
    exact (H H1).
  - destruct (advance_compose 7 0 sample_buffer) as (_ & _ & _ & _ & H).
    exact (H H2).
Defined.

(** [memset_bytes] returns only when every byte it is to store is
    mapped. *)
Lemma memset_bytes_returns (k : nat) : forall (m m' : memory) (s : Z) (v : byte),
  memset_bytes m s v k = Some m' -> region_mapped m s (Z.of_nat k).
Proof.
  induction k as [|k IH]; intros m m' s v Hrun a Ha.
  - lia.
  - cbn [memset_bytes] in Hrun.
    destruct (m s) as [old|] eqn:Hs; [|discriminate].
    destruct (Z.eq_dec a s) as [->|Hne]; [congruence|].
    pose proof (IH _ _ _ _ Hrun a) as Hmap.
    rewrite store_other in Hmap by exact Hne.
    apply Hmap. lia.
Qed.

(** X2.  [memset_s(s, c, n)] on [n] mapped bytes returns [s], leaves each of
    the [n] bytes equal to [c] converted to [unsigned char], and leaves
    the rest of memory alone. *)
Theorem memset_s_fills (s c n : Z) (m : memory) :
  region_mapped m s n ->
  exists m',
    memset_s s c n m = Some (s, m') /\
    (forall a, s <= a < s + n -> m' a = Some (to_uchar c)) /\
    (forall a, ~ (s <= a < s + n) -> m' a = m a).
Proof.
  intros Hmap. unfold memset_s, memset.
  destruct (memset_bytes_mapped (Z.to_nat n) m s (to_uchar c))
    as (m' & Hrun & Hin & Hout).
  { intros a Ha. apply Hmap. lia. }
  exists m'. rewrite Hrun. split; [reflexivity|]. split.
  - intros a Ha. apply Hin. lia.
  - intros a Ha. apply Hout. lia.
Qed.

Lemma memset_s_fills_witness :
  exists m',
    memset_s 16 511 4 secret_memory = Some (16, m') /\
    (forall a, 16 <= a < 16 + 4 -> m' a = Some (to_uchar 511)) /\
    (forall a, ~ (16 <= a < 16 + 4) -> m' a = secret_memory a).
Proof.
  apply (memset_s_fills 16 511 4 secret_memory). exact secret_memory_mapped.
Defined.

Lemma Eraser_destroy_returns_mapped (e : Eraser) (m m' : memory) :
  0 <= size_ e ->
  Eraser_destroy e m = Some m' -> region_mapped m (buf_ e) (size_ e).
Proof.
  intros Hsz Hrun. unfold Eraser_destroy, memset_s, memset in Hrun.
  destruct (memset_bytes m (buf_ e) (to_uchar 0) (Z.to_nat (size_ e)))
    as [m0|] eqn:Hm; [|discriminate].
  apply memset_bytes_returns in Hm.
  intros a Ha. apply Hm. lia.
Qed.

(** X3.  The destructor of an [Eraser] returns exactly when the whole region
    it is bound to is mapped; otherwise it faults. *)
Theorem Eraser_destroy_returns_iff (e : Eraser) (m : memory) :
  0 <= size_ e ->
  (Eraser_destroy e m <> None <-> region_mapped m (buf_ e) (size_ e)).
Proof.
  intros Hsz. split.
  - intros Hrun. destruct (Eraser_destroy e m) as [m'|] eqn:Hm; [|congruence].
    exact (Eraser_destroy_returns_mapped e m m' Hsz Hm).
  - intros Hmap.
    destruct (Eraser_destroy_mapped e m Hmap) as (m' & Hrun & _).
    rewrite Hrun. discriminate.
Qed.

Lemma Eraser_destroy_returns_iff_witness :
  0 <= size_ (Eraser_ptr 16 4) /\
  Eraser_destroy (Eraser_ptr 16 4) secret_memory <> None /\
  ~ region_mapped secret_memory 18 4.
Proof.
  assert (H4 : 0 <= size_ (Eraser_ptr 16 4)) by (cbn; lia).
  split; [exact H4|]. split.
  - apply (proj2 (Eraser_destroy_returns_iff (Eraser_ptr 16 4) secret_memory H4)).
    exact secret_memory_mapped.
  - intros Hmap.
    apply (proj2 (Eraser_destroy_returns_iff (Eraser_ptr 18 4) secret_memory H4))
      in Hmap.
    apply Hmap. reflexivity.
Defined.

(** X4.  Wiping twice is wiping once: after the destructor of an [Eraser] has
    returned, the destructor of a second [Eraser] bound to the same
    region returns too and leaves every byte of memory as the first one
    left it. *)
Theorem Eraser_destroy_idempotent (e : Eraser) (m m1 : memory) :
  0 <= size_ e ->
  Eraser_destroy e m = Some m1 ->
  exists m2, Eraser_destroy e m1 = Some m2 /\ forall a, m2 a = m1 a.
Proof.
  intros Hsz Hrun.
  pose proof (Eraser_destroy_returns_mapped e m m1 Hsz Hrun) as Hmap.
  destruct (Eraser_destroy_mapped e m Hmap) as (m1' & Hrun' & Hin & Hout).
  assert (m1' = m1) by congruence. subst m1'.
  assert (Hmap1 : region_mapped m1 (buf_ e) (size_ e)).
  { intros a Ha. rewrite (Hin a Ha). discriminate. }
  destruct (Eraser_destroy_mapped e m1 Hmap1) as (m2 & Hrun2 & Hin2 & Hout2).
  exists m2. split; [exact Hrun2|].
  intros a.
  destruct (Z_le_gt_dec (buf_ e) a) as [Hge|Hlt];
    [destruct (Z_lt_ge_dec a (buf_ e + size_ e)) as [Hlt2|Hge2]|].
  - rewrite Hin2, Hin by lia. reflexivity.
  - apply Hout2. lia.
  - apply Hout2. lia.
Qed.

Lemma Eraser_destroy_idempotent_witness :
  exists m1 m2,
    Eraser_destroy (Eraser_ptr 16 4) secret_memory = Some m1 /\
    Eraser_destroy (Eraser_ptr 16 4) m1 = Some m2 /\
    forall a, m2 a = m1 a.
Proof.
  destruct (Eraser_destroy_mapped (Eraser_ptr 16 4) secret_memory
              secret_memory_mapped) as (m1 & Hrun & _).
  assert (H4 : 0 <= size_ (Eraser_ptr 16 4)) by (cbn; lia).
  destruct (Eraser_destroy_idempotent (Eraser_ptr 16 4) secret_memory m1 H4 Hrun)
    as (m2 & Hrun2 & Hsame).
  exists m1, m2. auto.
Defined.

(** ** The array helpers *)

Section ArrayFacts.

Variable T : Type.

Lemma copy_array_from_spec (arr : list T) : forall (i : Z) (dest : Z -> T),
  (forall k x, nth_error arr k = Some x ->
               copy_array_from arr i dest (i + Z.of_nat k) = x) /\
  (forall j, ~ (i <= j < i + Z.of_nat (length arr)) ->
             copy_array_from arr i dest j = dest j).
Proof.
  induction arr as [|y rest IH]; intros i dest.
  - split.
    + intros k x Hk. destruct k; discriminate.
    + reflexivity.
  - destruct (IH (i + 1) (fun j => if j =? i then y else dest j))
      as [Hin Hout].
    split.
    + intros k x Hk. cbn [copy_array_from]. destruct k as [|k].
      * injection Hk as <-. rewrite Hout by lia.
        replace (i + Z.of_nat 0) with i by lia. now rewrite Z.eqb_refl.
      * cbn in Hk. specialize (Hin k x Hk).
        replace (i + Z.of_nat (S k)) with (i + 1 + Z.of_nat k) by lia.
        exact Hin.
    + intros j Hj. cbn [copy_array_from length] in *.
      rewrite Hout by lia.
      destruct (Z.eqb_spec j i); [lia | reflexivity].
Qed.

(** X5.  [copy_array(arr, dest)] leaves [dest[k] = arr[k]] for every index
    [k] of the array and every other element of [dest] as it was. *)
Theorem copy_array_copies (arr : list T) (dest : Z -> T) :
  (forall k x, nth_error arr k = Some x ->
               copy_array arr dest (Z.of_nat k) = x) /\
  (forall j, ~ (0 <= j < array_length arr) -> copy_array arr dest j = dest j).
Proof.
  destruct (copy_array_from_spec arr 0 dest) as [Hin Hout].
  split.
  - intros k x Hk. exact (Hin k x Hk).
  - intros j Hj. apply Hout. unfold array_length in Hj. lia.
Qed.

Variable T_eq : T -> T -> bool.
Hypothesis T_eq_spec : forall x y, T_eq x y = true <-> x = y.

(** X7.  [array_contains(a, val)] is true exactly when some element of the
    array equals [val]. *)
Theorem array_contains_iff (a : list T) (val : T) :
  array_contains T_eq a val = true <-> In val a.
Proof.
  induction a as [|x rest IH]; cbn.
  - split; [discriminate | contradiction].
  - destruct (T_eq x val) eqn:Hx.
    + split; [intros _; left; now apply T_eq_spec | reflexivity].
    + rewrite IH. split; [now right|].
      intros [Heq|Hin]; [|exact Hin].
      apply T_eq_spec in Heq. congruence.
Qed.

End ArrayFacts.

Lemma copy_array_copies_witness :
  copy_array [7; 8; 9] (fun _ => 0) 1 = 8 /\
  copy_array [7; 8; 9] (fun _ => 0) 3 = 0.
Proof.
  destruct (copy_array_copies Z [7; 8; 9] (fun _ => 0)) as [Hin Hout].
  split.
  - apply (Hin 1%nat 8). reflexivity.
  - apply (Hout 3). unfold array_length. cbn. lia.
Defined.

Lemma array_contains_iff_witness :
  array_contains Z.eqb [7; 8; 9] 8 = true /\ ~ In 5 [7; 8; 9].
Proof.
  split.
  - apply (array_contains_iff Z Z.eqb Z.eqb_eq [7; 8; 9] 8).
    cbn. auto.
  - intros Hin.
    apply (array_contains_iff Z Z.eqb Z.eqb_eq [7; 8; 9] 5) in Hin.
    discriminate Hin.
Defined.

(** ** [java_time] *)

Lemma pow2_pos (k : Z) : 0 <= k -> 0 < 2 ^ k.
Proof. intros H. apply Z.pow_pos_nonneg; lia. Qed.

Lemma pow2_double (bits : Z) : 1 <= bits -> 2 ^ bits = 2 * 2 ^ (bits - 1).
Proof.
  intros H. replace bits with (Z.succ (bits - 1)) at 1 by lia.
  apply Z.pow_succ_r. lia.
Qed.

Lemma to_signed_id (bits z : Z) :
  1 <= bits -> signed_range bits z -> to_signed bits z = z.
Proof.
  intros Hb Hz. unfold signed_range in Hz. unfold to_signed.
  pose proof (pow2_double bits Hb).
  rewrite Z.mod_small; lia.
Qed.

Lemma to_signed_range (bits z : Z) :
  1 <= bits -> signed_range bits (to_signed bits z).
Proof.
  intros Hb. unfold signed_range, to_signed.
  pose proof (pow2_double bits Hb).
  pose proof (pow2_pos (bits - 1) ltac:(lia)).
  pose proof (Z.mod_pos_bound (z + 2 ^ (bits - 1)) (2 ^ bits)). lia.
Qed.

Lemma signed_range_mono (b1 b2 z : Z) :
  1 <= b1 <= b2 -> signed_range b1 z -> signed_range b2 z.
Proof.
  intros Hb Hz. unfold signed_range in *.
  assert (2 ^ (b1 - 1) <= 2 ^ (b2 - 1)) by (apply Z.pow_le_mono_r; lia).
  lia.
Qed.

(** [java_time] never leaves the range of [time_t], so it is the
    product itself only when the product is in that range. *)
Lemma java_time_in_range (time_bits t : Z) :
  32 <= time_bits <= 64 ->
  java_time time_bits t = to_signed time_bits (t * 1000) /\
  signed_range time_bits (java_time time_bits t).
Proof.
  intros Hb. unfold java_time.
  pose proof (to_signed_range time_bits (t * 1000) ltac:(lia)) as Hr.
  rewrite to_signed_id; [auto | lia |].
  apply (signed_range_mono time_bits 64); [lia | exact Hr].
Qed.

(** X8.  [java_time(time)] is exactly [time * 1000] if and only if that
    product is a value of [time_t]: the multiplication is carried out in
    [time_t] before the result becomes an [int64_t], so a narrow
    [time_t] loses the product even though an [int64_t] could hold
    it. *)
Theorem java_time_exact_iff (time_bits t : Z) :
  32 <= time_bits <= 64 ->
  (java_time time_bits t = t * 1000 <-> signed_range time_bits (t * 1000)).
Proof.
  intros Hb. destruct (java_time_in_range time_bits t Hb) as [Heq Hr].
  split.
  - intros H. rewrite <- H. exact Hr.
  - intros H. rewrite Heq. apply to_signed_id; [lia | exact H].
Qed.

Lemma java_time_exact_iff_witness :
  java_time 64 1700000000 = 1700000000 * 1000 /\
  java_time 32 2147484 <> 2147484 * 1000.
Proof.
  split.
  - apply (proj2 (java_time_exact_iff 64 1700000000 ltac:(lia))).
    unfold signed_range. cbn. lia.
  - intros H.
    apply (proj1 (java_time_exact_iff 32 2147484 ltac:(lia))) in H.
    unfold signed_range in H. cbn in H. lia.
Defined.

(** X9.  On times whose product with 1000 is a value of [time_t],
    [java_time] preserves and reflects the order of times, its result is
    a value of [int64_t], and dividing it by 1000 gives the time
    back. *)
Theorem java_time_order_and_back (time_bits t1 t2 : Z) :
  32 <= time_bits <= 64 ->
  signed_range time_bits (t1 * 1000) ->
  signed_range time_bits (t2 * 1000) ->
  (t1 < t2 <-> java_time time_bits t1 < java_time time_bits t2) /\
  Z.quot (java_time time_bits t1) 1000 = t1 /\
  signed_range 64 (java_time time_bits t1).
Proof.
  intros Hb H1 H2.
  destruct (java_time_in_range time_bits t1 Hb) as [E1 R1].
  destruct (java_time_in_range time_bits t2 Hb) as [E2 _].
  rewrite to_signed_id in E1 by (lia || exact H1).
  rewrite to_signed_id in E2 by (lia || exact H2).
  split; [|split].
  - rewrite E1, E2. lia.
  - rewrite E1. apply Z.quot_mul. lia.
  - apply (signed_range_mono time_bits 64); [lia | exact R1].
Qed.

Lemma java_time_order_and_back_witness :
  (5 < 60 <-> java_time 32 5 < java_time 32 60) /\
  Z.quot (java_time 32 5) 1000 = 5 /\
  signed_range 64 (java_time 32 5).
Proof.
  apply (java_time_order_and_back 32 5 60).
  - lia.
  - unfold signed_range. cbn. lia.
  - unfold signed_range. cbn. lia.
Defined.

(** ** Which cursor moves are safe *)

Lemma to_int_above (z : Z) :
  INT_MAX < z <= INT_MAX + 2 ^ 32 -> to_int z = z - 2 ^ 32.
Proof.
  unfold INT_MAX, to_int. intros H.
  replace (z + 2 ^ 31) with (z + 2 ^ 31 - 2 ^ 32 + 1 * 2 ^ 32) by lia.
  rewrite Z_mod_plus_full, Z.mod_small; lia.
Qed.

(** X10.  On a buffer whose cursors are in order, [advance_read(d)]
    leaves them in order exactly when the moved read cursor stays
    between 0 and the write cursor, and [advance_write(d)] exactly when
    the moved write cursor stays between the read cursor and the
    capacity and is still a value of [int]. *)
Theorem advance_keeps_cursors_iff (d : Z) (b : Buffer) :
  cursors_ok b -> int_range (write_position_ b) -> int_range d ->
  (cursors_ok (advance_read d b) <->
   0 <= read_position_ b + d <= write_position_ b) /\
  (cursors_ok (advance_write d b) <->
   read_position_ b <= write_position_ b + d <= buffer_size_ b /\
   write_position_ b + d <= INT_MAX).
Proof.
  intros (H0 & Hrw & Hwc) Hw Hd.
  unfold cursors_ok, advance_read, advance_write; cbn.
  unfold int_range, INT_MIN in Hw, Hd.
  split.
  - destruct (Z_le_gt_dec (read_position_ b + d) INT_MAX) as [Hin|Hover].
    + rewrite to_int_id by (unfold int_range, INT_MIN; lia).
      unfold INT_MAX in *. lia.
    + rewrite to_int_above by (unfold INT_MAX in *; lia). unfold INT_MAX in *. lia.
  - destruct (Z_le_gt_dec (write_position_ b + d) INT_MAX) as [Hin|Hover].
    + rewrite to_int_id by (unfold int_range, INT_MIN; lia).
      unfold INT_MAX in *. lia.
    + rewrite to_int_above by (unfold INT_MAX in *; lia). unfold INT_MAX in *. lia.
Qed.

Lemma advance_keeps_cursors_iff_witness :
  cursors_ok (advance_read 3 sample_buffer) /\
  ~ cursors_ok (advance_read 4 sample_buffer) /\
  cursors_ok (advance_write 11 sample_buffer) /\
  ~ cursors_ok (advance_write INT_MAX sample_buffer).
Proof.
  assert (Hs : cursors_ok sample_buffer) by (unfold cursors_ok; cbn; lia).
  assert (Hw : int_range (write_position_ sample_buffer)) by (cbn; range_lia).
  split; [|split; [|split]].
  - apply (proj1 (advance_keeps_cursors_iff 3 sample_buffer Hs Hw
                    ltac:(range_lia))).
    cbn. lia.
  - intros H.
    apply (proj1 (advance_keeps_cursors_iff 4 sample_buffer Hs Hw
                    ltac:(range_lia))) in H.
    cbn in H. lia.
  - apply (proj2 (advance_keeps_cursors_iff 11 sample_buffer Hs Hw
                    ltac:(range_lia))).
    cbn. unfold INT_MAX. lia.
  - intros H.
    apply (proj2 (advance_keeps_cursors_iff INT_MAX sample_buffer Hs Hw
                    ltac:(range_lia))) in H.
    cbn in H. unfold INT_MAX in H. lia.
Defined.

(** ** More on [Eraser] *)

(** The destructor changes no address from mapped to unmapped or back,
    and every byte it changes it changes to zero. *)
Lemma Eraser_destroy_effect (e : Eraser) (m m' : memory) :
  Eraser_destroy e m = Some m' ->
  forall a, (m' a = None <-> m a = None) /\ (m' a = m a \/ m' a = Some x00).
Proof.
  intros Hrun a.
  destruct (Z_le_gt_dec 0 (size_ e)) as [Hsz|Hneg].
  - pose proof (Eraser_destroy_returns_mapped e m m' Hsz Hrun) as Hmap.
    destruct (Eraser_destroy_mapped e m Hmap) as (m0 & Hrun0 & Hin & Hout).
    assert (m0 = m') by congruence. subst m0.
    destruct (Z_le_gt_dec (buf_ e) a) as [Hge|Hlt];
      [destruct (Z_lt_ge_dec a (buf_ e + size_ e)) as [Hlt2|Hge2]|].
    + rewrite (Hin a) by lia. split; [|now right].
      split; [discriminate|]. intros Hnone. exfalso.
      apply (Hmap a); [lia | exact Hnone].
    + rewrite (Hout a) by lia. split; [reflexivity | now left].
    + rewrite (Hout a) by lia. split; [reflexivity | now left].
  - unfold Eraser_destroy, memset_s, memset in Hrun.
    replace (Z.to_nat (size_ e)) with 0%nat in Hrun by lia.
    cbn in Hrun. injection Hrun as <-. split; [reflexivity | now left].
Qed.

(** X11.  Whatever an [Eraser] is bound to, when its destructor returns
    it has not mapped or unmapped any address, and every byte of memory
    is either as it was or zero: nothing but zeros is ever written. *)
Theorem Eraser_writes_only_zeros (e : Eraser) (m m' : memory) (a : Z) :
  Eraser_destroy e m = Some m' ->
  (m' a = None <-> m a = None) /\ (m' a = m a \/ m' a = Some x00).
Proof.
  intros Hrun. exact (Eraser_destroy_effect e m m' Hrun a).
Qed.

Lemma Eraser_writes_only_zeros_witness :
  exists m',
    Eraser_destroy (Eraser_ptr 17 2) secret_memory = Some m' /\
    (m' 17 = None <-> secret_memory 17 = None) /\
    (m' 17 = secret_memory 17 \/ m' 17 = Some x00).
Proof.
  destruct (Eraser_destroy (Eraser_ptr 17 2) secret_memory) as [m'|] eqn:Hrun.
  - exists m'. split; [reflexivity|].
    exact (Eraser_writes_only_zeros (Eraser_ptr 17 2) secret_memory m' 17 Hrun).
  - vm_compute in Hrun. discriminate Hrun.
Defined.

Lemma region_mapped_after (e : Eraser) (m m' : memory) (p n : Z) :
  Eraser_destroy e m = Some m' ->
  (region_mapped m' p n <-> region_mapped m p n).
Proof.
  intros Hrun. unfold region_mapped. split; intros H a Ha Hnone.
  - apply (H a Ha). now apply (Eraser_destroy_effect e m m' Hrun a).
  - apply (H a Ha). now apply (Eraser_destroy_effect e m m' Hrun a).
Qed.

(** After both of two wipes have returned, a byte is zero when it lies
    in either region and untouched otherwise. *)
Lemma Eraser_destroy_twice (e1 e2 : Eraser) (m m1 m12 : memory) :
  0 <= size_ e1 -> 0 <= size_ e2 ->
  Eraser_destroy e1 m = Some m1 ->
  Eraser_destroy e2 m1 = Some m12 ->
  forall a,
    m12 a =
      if ((buf_ e1 <=? a) && (a <? buf_ e1 + size_ e1)) ||
         ((buf_ e2 <=? a) && (a <? buf_ e2 + size_ e2))
      then Some x00 else m a.
Proof.
  intros H1 H2 Hrun1 Hrun2 a.
  pose proof (Eraser_destroy_returns_mapped e1 m m1 H1 Hrun1) as Hmap1.
  pose proof (Eraser_destroy_returns_mapped e2 m1 m12 H2 Hrun2) as Hmap2.
  destruct (Eraser_destroy_mapped e1 m Hmap1) as (x & Hx & Hin1 & Hout1).
  assert (x = m1) by congruence. subst x.
  destruct (Eraser_destroy_mapped e2 m1 Hmap2) as (y & Hy & Hin2 & Hout2).
  assert (y = m12) by congruence. subst y.
  destruct (Z.leb_spec (buf_ e2) a); destruct (Z.ltb_spec a (buf_ e2 + size_ e2));
    destruct (Z.leb_spec (buf_ e1) a); destruct (Z.ltb_spec a (buf_ e1 + size_ e1));
    cbn;
    first [ rewrite (Hin2 a) by lia; reflexivity
          | rewrite (Hout2 a) by lia;
            first [ rewrite (Hin1 a) by lia; reflexivity
                  | rewrite (Hout1 a) by lia; reflexivity ] ].
Qed.

(** X12.  Two [Eraser]s may be destroyed in either order: if wiping the
    first region and then the second returns, so does wiping the second
    and then the first, and memory ends the same byte for byte, whether
    or not the regions overlap. *)
Theorem Eraser_destroy_commutes (e1 e2 : Eraser) (m m1 m12 : memory) :
  0 <= size_ e1 -> 0 <= size_ e2 ->
  Eraser_destroy e1 m = Some m1 ->
  Eraser_destroy e2 m1 = Some m12 ->
  exists m2 m21,
    Eraser_destroy e2 m = Some m2 /\
    Eraser_destroy e1 m2 = Some m21 /\
    forall a, m21 a = m12 a.
Proof.
  intros H1 H2 Hrun1 Hrun2.
  pose proof (Eraser_destroy_returns_mapped e1 m m1 H1 Hrun1) as Hmap1.
  pose proof (Eraser_destroy_returns_mapped e2 m1 m12 H2 Hrun2) as Hmap2.
  apply (region_mapped_after e1 m m1 _ _ Hrun1) in Hmap2.
  destruct (Eraser_destroy_mapped e2 m Hmap2) as (m2 & Hrun2' & _).
  assert (Hmap1' : region_mapped m2 (buf_ e1) (size_ e1))
    by (now apply (region_mapped_after e2 m m2 _ _ Hrun2')).
  destruct (Eraser_destroy_mapped e1 m2 Hmap1') as (m21 & Hrun1' & _).
  exists m2, m21. split; [exact Hrun2' | split; [exact Hrun1'|]].
  intros a.
  rewrite (Eraser_destroy_twice e1 e2 m m1 m12 H1 H2 Hrun1 Hrun2 a).
  rewrite (Eraser_destroy_twice e2 e1 m m2 m21 H2 H1 Hrun2' Hrun1' a).
  now rewrite orb_comm.
Qed.

Lemma Eraser_destroy_commutes_witness :
  exists m1 m12 m2 m21,
    Eraser_destroy (Eraser_ptr 16 3) secret_memory = Some m1 /\
    Eraser_destroy (Eraser_ptr 18 2) m1 = Some m12 /\
    Eraser_destroy (Eraser_ptr 18 2) secret_memory = Some m2 /\
    Eraser_destroy (Eraser_ptr 16 3) m2 = Some m21 /\
    forall a, m21 a = m12 a.
Proof.
  destruct (Eraser_destroy (Eraser_ptr 16 3) secret_memory) as [m1|] eqn:Hrun1;
    [|vm_compute in Hrun1; discriminate Hrun1].
  destruct (Eraser_destroy (Eraser_ptr 18 2) m1) as [m12|] eqn:Hrun2.
  - destruct (Eraser_destroy_commutes (Eraser_ptr 16 3) (Eraser_ptr 18 2)
                secret_memory m1 m12 ltac:(cbn; lia) ltac:(cbn; lia) Hrun1 Hrun2)
      as (m2 & m21 & Ha & Hb & Hc).
    exists m1, m12, m2, m21. rewrite Ha. auto.
  - exfalso. vm_compute in Hrun1. injection Hrun1 as <-.
    vm_compute in Hrun2. discriminate Hrun2.
Defined.

(** X13.  Wiping a region whole and wiping it as two adjacent parts are
    the same: if the destructor of an [Eraser] over [n1 + n2] bytes
    returns, so do those of an [Eraser] over the first [n1] bytes and
    one over the next [n2], and memory ends the same byte for byte. *)
Theorem Eraser_destroy_by_parts (p n1 n2 : Z) (m m' : memory) :
  0 <= n1 -> 0 <= n2 ->
  Eraser_destroy (Eraser_ptr p (n1 + n2)) m = Some m' ->
  exists m1 m2,
    Eraser_destroy (Eraser_ptr p n1) m = Some m1 /\
    Eraser_destroy (Eraser_ptr (p + n1) n2) m1 = Some m2 /\
    forall a, m2 a = m' a.
Proof.
  intros H1 H2 Hrun.
  assert (H12 : 0 <= size_ (Eraser_ptr p (n1 + n2))) by (cbn; lia).
  assert (H1' : 0 <= size_ (Eraser_ptr p n1)) by (cbn; lia).
  assert (H2' : 0 <= size_ (Eraser_ptr (p + n1) n2)) by (cbn; lia).
  pose proof (Eraser_destroy_returns_mapped _ m m' H12 Hrun) as Hmap.
  destruct (Eraser_destroy_mapped _ m Hmap) as (x & Hx & Hin & Hout).
  cbn in Hmap.
  assert (x = m') by congruence. subst x. cbn in Hin, Hout.
  assert (Hmap1 : region_mapped m (buf_ (Eraser_ptr p n1)) (size_ (Eraser_ptr p n1))).
  { cbn. intros a Ha. apply Hmap. lia. }
  destruct (Eraser_destroy_mapped _ m Hmap1) as (m1 & Hrun1 & _).
  assert (Hmap2 : region_mapped m1 (buf_ (Eraser_ptr (p + n1) n2))
                    (size_ (Eraser_ptr (p + n1) n2))).
  { apply (region_mapped_after _ m m1 _ _ Hrun1).
    cbn. intros a Ha. apply Hmap. lia. }
  destruct (Eraser_destroy_mapped _ m1 Hmap2) as (m2 & Hrun2 & _).
  exists m1, m2. split; [exact Hrun1 | split; [exact Hrun2|]].
  intros a.
  rewrite (Eraser_destroy_twice _ _ m m1 m2 H1' H2' Hrun1 Hrun2 a).
  cbn.
  destruct (Z.leb_spec p a); destruct (Z.ltb_spec a (p + n1));
    destruct (Z.leb_spec (p + n1) a); destruct (Z.ltb_spec a (p + n1 + n2));
    cbn; try lia;
    first [ rewrite (Hin a) by lia; reflexivity
          | rewrite (Hout a) by lia; reflexivity ].
Qed.

Lemma Eraser_destroy_by_parts_witness :
  exists m' m1 m2,
    Eraser_destroy (Eraser_ptr 16 (1 + 3)) secret_memory = Some m' /\
    Eraser_destroy (Eraser_ptr 16 1) secret_memory = Some m1 /\
    Eraser_destroy (Eraser_ptr (16 + 1) 3) m1 = Some m2 /\
    forall a, m2 a = m' a.
Proof.
  destruct (Eraser_destroy (Eraser_ptr 16 (1 + 3)) secret_memory) as [m'|] eqn:Hrun;
    [|vm_compute in Hrun; discriminate Hrun].
  destruct (Eraser_destroy_by_parts 16 1 3 secret_memory m'
              ltac:(lia) ltac:(lia) Hrun) as (m1 & m2 & Ha & Hb & Hc).
  exists m', m1, m2. auto.
Defined.

(** ** More on the array helpers *)

Section ArrayCompose.

Variable T : Type.

(** X14.  [dup_array(a)], when the allocation succeeds, returns what
    [copy_array(a, dup)] makes of the newly allocated array: the
    [memcpy] of the one and the element loop of the other agree on
    every index, inside the array and beyond it. *)
Theorem dup_array_is_copy_array (fresh : Z -> T) (a : list T) :
  exists dup,
    dup_array (Some fresh) a = Some dup /\
    forall j, dup j = copy_array a fresh j.
Proof.
  eexists. split; [reflexivity|].
  intros j. cbn beta.
  destruct (copy_array_from_spec T a 0 fresh) as [Hin Hout].
  unfold copy_array, array_length.
  destruct (Z.leb_spec 0 j) as [H0|H0];
    destruct (Z.ltb_spec j (Z.of_nat (length a))) as [H1|H1]; cbn.
  - destruct (nth_error a (Z.to_nat j)) as [x|] eqn:Hx.
    + specialize (Hin (Z.to_nat j) x Hx).
      rewrite Z2Nat.id in Hin by lia. cbn in Hin. now rewrite Hin.
    + apply nth_error_None in Hx. lia.
  - rewrite Hout by lia. reflexivity.
  - rewrite Hout by lia. reflexivity.
  - rewrite Hout by lia. reflexivity.
Qed.

Variable T_eq : T -> T -> bool.

(** X15.  Whatever the element type's [operator==] computes,
    [array_contains(a, val)] is true exactly when [a[i] == val] is true
    at some index [i], the element standing on the left; and on two
    arrays laid end to end it is the disjunction of the two answers. *)
Theorem array_contains_some_index (a : list T) (val : T) :
  (array_contains T_eq a val = true <->
   exists i x, nth_error a i = Some x /\ T_eq x val = true) /\
  (forall a2 : list T,
     array_contains T_eq (a ++ a2) val =
     array_contains T_eq a val || array_contains T_eq a2 val).
Proof.
  split.
  - induction a as [|y rest IH]; cbn.
    + split; [discriminate|]. intros (i & x & Hi & _).
      destruct i; discriminate.
    + destruct (T_eq y val) eqn:Hy.
      * split; [|reflexivity]. intros _. now exists 0%nat, y.
      * rewrite IH. split.
        -- intros (i & x & Hi & Hx). now exists (S i), x.
        -- intros (i & x & Hi & Hx). destruct i as [|i].
           ++ cbn in Hi. injection Hi as <-. congruence.
           ++ now exists i, x.
  - intros a2. induction a as [|y rest IH]; cbn.
    + reflexivity.
    + destruct (T_eq y val); [reflexivity | exact IH].
Qed.

End ArrayCompose.

Lemma array_contains_some_index_witness :
  array_contains Z.ltb [7; 8; 9] 8 = true /\
  array_contains Z.ltb [8; 9] 8 = false.
Proof.
  split.
  - apply (proj1 (array_contains_some_index Z Z.ltb [7; 8; 9] 8)).
    exists 0%nat, 7. split; reflexivity.
  - destruct (array_contains Z.ltb [8; 9] 8) eqn:H; [|reflexivity].
    apply (proj1 (array_contains_some_index Z Z.ltb [8; 9] 8)) in H.
    destruct H as (i & x & Hi & Hx).
    destruct i as [|[|[|i]]]; cbn in Hi; try discriminate;
      injection Hi as <-; discriminate Hx.
Defined.

(** ** Writing and reading in place *)

(** X16.  The in-place pattern on a buffer whose cursors are in order
    and whose array matches its size: storing [n] bytes through the
    pointer [peek_write()] returns and calling [advance_write(n)], for
    [n] within the free space and the moved cursor within [int], leaves
    the cursors in order with the write cursor [n] further on; and once
    [advance_read] has skipped what was unread before, the [n] bytes at
    [peek_read()] are the bytes stored, in order. *)
Theorem in_place_round_trip (src dest : view) (n : Z) (b : Buffer) :
  cursors_ok b -> storage_ok b ->
  0 <= n ->
  write_position_ b + n <= buffer_size_ b ->
  write_position_ b + n <= INT_MAX ->
  exists b1 d,
    store_at (peek_write b) src n b = Ret b1 /\
    cursors_ok (advance_write n b1) /\
    storage_ok (advance_write n b1) /\
    write_position_ (advance_write n b1) = write_position_ b + n /\
    load_at dest
      (peek_read (advance_read (write_position_ b - read_position_ b)
                    (advance_write n b1))) n = Ret d /\
    bytes_at d n = bytes_at src n.
Proof.
  intros (H0 & Hrw & Hwc) Hst Hn Hfit Hmax.
  assert (Hid : to_int (write_position_ b + n) = write_position_ b + n)
    by (apply to_int_id; range_lia).
  assert (Hback :
    to_int (read_position_ b + (write_position_ b - read_position_ b))
    = write_position_ b).
  { replace (read_position_ b + (write_position_ b - read_position_ b))
      with (write_position_ b) by lia.
    apply to_int_id. range_lia. }
  unfold store_at, load_at, peek_write, peek_read, memcpy_to_block,
    memcpy_from_block.
  cbn [fst snd].
  destruct (Z.eqb_spec n 0) as [->|Hn0].
  - cbn [bind]. eexists. exists dest.
    split; [reflexivity|].
    unfold cursors_ok, storage_ok, advance_write, advance_read in *; cbn.
    rewrite Hid. cbn.
    split; [lia|]. split; [exact Hst|]. split; [reflexivity|].
    split; reflexivity.
  - unfold storage_ok in Hst.
    destruct (buffer_ b) as [blk|] eqn:Hblk; [|lia].
    assert (Hin : in_block blk (write_position_ b) n = true).
    { unfold in_block. apply andb_true_intro.
      split; apply Z.leb_le; lia. }
    rewrite Hin. cbn [bind]. eexists. eexists.
    split; [reflexivity|].
    unfold cursors_ok, storage_ok, advance_write, advance_read; cbn.
    rewrite Hid, Hback.
    split; [lia|]. split; [exact Hst|]. split; [reflexivity|].
    destruct (Z.eqb_spec n 0) as [Hz|_]; [contradiction|].
    unfold in_block in *. cbn. rewrite Hin.
    split; [reflexivity|].
    apply bytes_at_ext. intros i Hi.
    destruct (Z.leb_spec 0 i); [|lia].
    destruct (Z.ltb_spec i n); [|lia]. cbn.
    destruct (Z.leb_spec (write_position_ b) (write_position_ b + i)); [|lia].
    destruct (Z.ltb_spec (write_position_ b + i) (write_position_ b + n)); [|lia].
    cbn. f_equal. lia.
Qed.

Lemma in_place_round_trip_witness :
  exists b1 d,
    store_at (peek_write sample_buffer) (view_of bytes_1_5) 5 sample_buffer
      = Ret b1 /\
    cursors_ok (advance_write 5 b1) /\
    write_position_ (advance_write 5 b1) = 10 /\
    load_at zeros (peek_read (advance_read 3 (advance_write 5 b1))) 5 = Ret d /\
    bytes_at d 5 = bytes_1_5.
Proof.
  destruct (in_place_round_trip (view_of bytes_1_5) zeros 5 sample_buffer)
    as (b1 & d & Hst & Hc & _ & Hw & Hld & Hb).
  - unfold cursors_ok; cbn; lia.
  - reflexivity.
  - lia.
  - cbn; lia.
  - cbn; unfold INT_MAX; lia.
  - exists b1, d. split; [exact Hst|]. split; [exact Hc|].
    split; [exact Hw|]. split; [exact Hld|].
    rewrite Hb. reflexivity.
Defined.
